(** * origin::hashing -- "Types don't know #"

    A shallow embedding of [hashing.hpp] (namespace [origin]) and of the
    driver [hashing.test/debug.cpp].

    The header is a set of overloads of [hash_append], selected by the
    static type of the value.  Each overload is one definition below;
    the selection among them is the function [hash_append].

    Data model of the embedding: x86-64, LP64, little endian; [float]
    and [double] are IEEE 754 binary32 and binary64; [long double] is
    the x87 extended format, ten bytes of value followed by six bytes
    of padding.  Types are taken without cv-qualifiers, as template
    argument deduction from [T const&] yields them; a pointer object
    records whether it points to const, on which the choice between the
    range overloads depends. *)

From Stdlib Require Import String ZArith List Lia Bool.
From coqutil Require Import Byte Word.LittleEndianList.
From Equations Require Import Equations.
Import ListNotations.

Set Implicit Arguments.
Local Open Scope Z_scope.

(* ------------------------------------------------------------------ *)
(** * Types *)

Module Ty.

(** The types [origin::Integral_type] accepts. *)
Inductive integral_kind : Set :=
| Bool | Char | SChar | UChar | WChar | Char16 | Char32
| Short | UShort | Int | UInt | Long | ULong | LongLong | ULongLong.

(** The types [origin::Floating_point_type] accepts. *)
Inductive floating_kind : Set :=
| Float | Double | LongDouble.

(** The types the header speaks about.  A class type carries the one
    thing the header can know of it: whether the program specialises
    [trivially_comparable] for it to [std::true_type]. *)
Inductive ctype : Set :=
| Integral (k : integral_kind)
| Floating (k : floating_kind)
| Pointer (pointee : ctype)
| Array (elem : ctype) (N : nat)          (* T[N] *)
| UnboundedArray (elem : ctype)           (* T[]  *)
| Class (name : string) (specialised_true : bool).

Definition integral_size (k : integral_kind) : nat :=
  match k with
  | Bool | Char | SChar | UChar => 1
  | Char16 | Short | UShort => 2
  | WChar | Char32 | Int | UInt => 4
  | Long | ULong | LongLong | ULongLong => 8
  end%nat.

(** [sizeof] of the floating point types; the sixteen bytes of a
    [long double] are ten bytes of value and six of padding. *)
Definition floating_size (k : floating_kind) : nat :=
  match k with Float => 4 | Double => 8 | LongDouble => 16 end%nat.

(** [sizeof(T)], in bytes.  A class type has no modelled objects, and
    an array of unknown bound is incomplete: both get 0. *)
Fixpoint sizeof (t : ctype) : nat :=
  match t with
  | Integral k => integral_size k
  | Floating k => floating_size k
  | Pointer _ => 8
  | Array e n => (n * sizeof e)%nat
  | UnboundedArray _ => 0
  | Class _ _ => 0
  end%nat.

(** [std::remove_extent_t<T>]: strips one array dimension, and is the
    identity on every other type. *)
Definition remove_extent (t : ctype) : ctype :=
  match t with
  | Array e _ => e
  | UnboundedArray e => e
  | _ => t
  end.

Fixpoint rank (t : ctype) : nat :=
  match t with
  | Array e _ => S (rank e)
  | UnboundedArray e => S (rank e)
  | _ => 0%nat
  end.

(** Modelled from the spec: [origin::Integral_type<T>()] is declared
    in <origin/generic.hpp>, which is not part of this repository; it
    is taken to hold of the integral types and of nothing else. *)
Definition Integral_type (t : ctype) : bool :=
  match t with Integral _ => true | _ => false end.

(** Modelled from the spec: [origin::Floating_point_type<T>()] is
    declared in <origin/generic.hpp> as well; it is taken to hold of
    [float], [double] and [long double]. *)
Definition Floating_point_type (t : ctype) : bool :=
  match t with Floating _ => true | _ => false end.

(** [std::is_scalar<T>], on the types modelled. *)
Definition scalar (t : ctype) : bool :=
  match t with
  | Integral _ | Floating _ | Pointer _ => true
  | _ => false
  end.

(** The trait [trivially_comparable<T>]: the primary template
    ([false_type]; a class type has what the program specialised for
    it) and its four partial specialisations, for [Integral_type T],
    [T*], [T[N]] and [T[]].  The array specialisations apply
    [remove_extent] to the element type [T] of [T[N]]. *)
Equations trivially_comparable (t : ctype) : bool by wf (rank t) lt :=
  trivially_comparable (Integral _) := true;
  trivially_comparable (Pointer _) := true;
  trivially_comparable (Array e _) := trivially_comparable (remove_extent e);
  trivially_comparable (UnboundedArray e) := trivially_comparable (remove_extent e);
  trivially_comparable (Class _ s) := s;
  trivially_comparable (Floating _) := false.
Next Obligation. destruct e; simpl; lia. Qed.
Next Obligation. destruct e; simpl; lia. Qed.

(** The concept [Hashable_with<T, H>]: the call [hash_append(h, t)] is
    valid for a [t] of type [T], that is, overload resolution finds one
    best overload for it among those of the header.  For [T[N]] the
    overload for arrays of trivially comparable elements is viable when
    the element type is trivially comparable, the overload for arrays
    of hashable elements when the element type is hashable; the two
    have one signature and constraints of which neither implies the
    other, so the call is ambiguous when both are viable. *)
Fixpoint Hashable_with (t : ctype) : bool :=
  match t with
  | Integral _ | Floating _ | Pointer _ => true
  | Array e _ => xorb (trivially_comparable e) (Hashable_with e)
  | UnboundedArray _ => false
  | Class _ s => s
  end.

End Ty.

(* ------------------------------------------------------------------ *)
(** * Memory and objects *)

Module Obj.
Import Ty.

(** An object of one of the types above, given by its value: an
    integral object by its number, a floating point object by the bit
    pattern of its object representation, a pointer ([T*] or
    [T const*]) by its address, an array by the list of its elements.
    The bit pattern of a [long double] holds the x87 value in its low
    eighty bits and the content of the six padding bytes above them:
    the padding is part of what the code reads. *)
#[local] Unset Elimination Schemes.
Inductive object : Type :=
| VIntegral (k : integral_kind) (n : Z)
| VFloating (k : floating_kind) (bits : Z)
| VPointer (pointee : ctype) (address : Z)
| VPointerToConst (pointee : ctype) (address : Z)
| VArray (elem : ctype) (elems : list object).
#[local] Set Elimination Schemes.

Definition type_of (v : object) : ctype :=
  match v with
  | VIntegral k _ => Integral k
  | VFloating k _ => Floating k
  | VPointer p _ | VPointerToConst p _ => Pointer p
  | VArray e xs => Array e (length xs)
  end.

(** The number a scalar object holds: its value, bit pattern or
    address. *)
Definition scalar_number (v : object) : Z :=
  match v with
  | VIntegral _ n => n
  | VFloating _ bits => bits
  | VPointer _ a | VPointerToConst _ a => a
  | VArray _ _ => 0
  end.

Definition elements (v : object) : list object :=
  match v with VArray _ xs => xs | _ => [] end.

(** [storage(t)]: the bytes of the object [t], lowest address first.
    Scalars are stored little endian in [sizeof] bytes, the last six
    bytes of a [long double] being its padding; the elements of an
    array follow each other without gaps. *)
Fixpoint storage (v : object) : list byte :=
  match v with
  | VIntegral k n => le_split (integral_size k) n
  | VFloating k bits => le_split (floating_size k) bits
  | VPointer _ a | VPointerToConst _ a => le_split 8 a
  | VArray _ xs => flat_map storage xs
  end.

Fixpoint ctype_eqb (s t : ctype) : bool :=
  match s, t with
  | Integral j, Integral k =>
      match j, k with
      | Bool, Bool | Char, Char | SChar, SChar | UChar, UChar
      | WChar, WChar | Char16, Char16 | Char32, Char32
      | Short, Short | UShort, UShort | Int, Int | UInt, UInt
      | Long, Long | ULong, ULong | LongLong, LongLong
      | ULongLong, ULongLong => true
      | _, _ => false
      end
  | Floating j, Floating k =>
      match j, k with
      | Float, Float | Double, Double | LongDouble, LongDouble => true
      | _, _ => false
      end
  | Pointer p, Pointer q => ctype_eqb p q
  | Array d m, Array e n => ctype_eqb d e && Nat.eqb m n
  | UnboundedArray d, UnboundedArray e => ctype_eqb d e
  | Class a x, Class b y => String.eqb a b && Bool.eqb x y
  | _, _ => false
  end.

(** Every element of an array has the array's element type. *)
Fixpoint well_typed (v : object) : bool :=
  match v with
  | VArray e xs =>
      forallb (fun x => ctype_eqb (type_of x) e && well_typed x) xs
  | _ => true
  end.

(** The elements an iterator visits on its way from position [first]
    to position [last] of the sequence [c]. *)
Definition between (c : list object) (first last : nat) : list object :=
  firstn (last - first) (skipn first c).

(** Two pointers on which a call [hash_append(h, p, q)] is taken by a
    range overload, both being more specialised than the variadic one.
    The pointers have one type.  For [T const*] the pointer overload is
    viable when [T] is trivially comparable and the iterator overload
    when [T] is hashable.  For [T*] the iterator overload is viable
    when [T] is hashable; the pointer overload would need a
    qualification conversion, with which it loses to the variadic
    one. *)
Definition pointer_pair (a b : object) : bool :=
  match a, b with
  | VPointer p _, VPointer q _ => ctype_eqb p q && Hashable_with p
  | VPointerToConst p _, VPointerToConst q _ =>
      ctype_eqb p q && (trivially_comparable p || Hashable_with p)
  | _, _ => false
  end.

(** Of these pairs, the ones the pointer overload takes: it is more
    specialised than the iterator overload. *)
Definition pointer_overload_pair (a b : object) : bool :=
  match a, b with
  | VPointerToConst p _, VPointerToConst q _ =>
      ctype_eqb p q && trivially_comparable p
  | _, _ => false
  end.

(** ** Floating point comparison with zero *)

(** The bits of the object that hold the value: all of them for
    [float] and [double], eighty of the 128 for [long double]. *)
Definition value_bits (k : floating_kind) : Z :=
  match k with Float => 32 | Double => 64 | LongDouble => 80 end.

(** [t == 0] converts [0] to [T] and compares: true exactly of the two
    zeros, in which every value bit below the sign is zero. *)
Definition sign_bit (k : floating_kind) : Z := value_bits k - 1.

Definition floating_eq_zero (k : floating_kind) (bits : Z) : bool :=
  Z.land bits (Z.ones (sign_bit k)) =? 0.

(** The bit pattern of [T(0)], positive zero. *)
Definition positive_zero : Z := 0.

Definition negative_zero (k : floating_kind) : Z := 2 ^ sign_bit k.

(** The content of the padding bytes of the object. *)
Definition padding (k : floating_kind) (bits : Z) : Z :=
  Z.shiftr bits (value_bits k).

(** [t = 0]: the store writes the value bits, all zero; the padding
    bytes keep what they held. *)
Definition assign_zero (k : floating_kind) (bits : Z) : Z :=
  Z.shiftl (padding k bits) (value_bits k).

End Obj.

(* ------------------------------------------------------------------ *)
(** * Hash algorithms *)

Module Hasher.

(** The concept [Hash_algorithm<H>]: [h(p, n)] absorbs [n] bytes found
    at [p], and [h.value()] yields the hash value.  The first argument
    of [operator_call] is the memory that starts at [p]; copying is
    implicit in the embedding. *)
Class Hash_algorithm (H : Type) : Type := {
  value_type : Type;
  operator_call : H -> list byte -> nat -> H;
  value : H -> value_type
}.

(** What [hash<H>::operator()] asks of [H] beyond the concept: a
    default constructor ([H hasher;]) and an implicit conversion to
    [result_type = Result_type<H>] ([return hasher;]). *)
Class Functor_ready (H : Type) : Type := {
  result_type : Type;
  default_constructed : H;
  converted : H -> result_type
}.

(** The same algorithm with another [value()]. *)
Definition with_value {H V : Type} (A : Hash_algorithm H) (f : H -> V)
  : Hash_algorithm H :=
  {| value_type := V; operator_call := @operator_call H A; value := f |}.

(** [struct debug_hasher]: records the bytes it is given. *)
Record debug_hasher : Type := { buf_ : list byte }.

Definition debug_call (h : debug_hasher) (key : list byte) (len : nat)
  : debug_hasher :=
  {| buf_ := buf_ h ++ firstn len key |}.

Definition debug_value (h : debug_hasher) : list byte := buf_ h.

#[export] Instance debug_hasher_algorithm : Hash_algorithm debug_hasher :=
  {| value_type := list byte;
     operator_call := debug_call;
     value := debug_value |}.

(** [debug_hasher h;] starts with an empty vector. *)
Definition fresh_debug_hasher : debug_hasher := {| buf_ := [] |}.

(** [debug_hasher] declares no conversion.  Where an example needs the
    functor to run on it, the conversion is taken to return [buf_]. *)
Definition debug_hasher_converting : Functor_ready debug_hasher :=
  {| result_type := list byte;
     default_constructed := fresh_debug_hasher;
     converted := buf_ |}.

End Hasher.

(* ------------------------------------------------------------------ *)
(** * Hash append *)

Module Append.
Import Ty Obj Hasher.

Section Overloads.
Context {H : Type} {A : Hash_algorithm H}.

(** A call [hash_append(h, x)] written in the body of an overload,
    as resolved at the point of instantiation.  [None]: the call
    does not return. *)
Variable hash_append : H -> object -> option H.

(** Memory: the objects that lie from the address the first pointer
    holds up to the address the second holds. *)
Variable pointed_range : object -> object -> list object.

(** Sequencing of the statements of a body. *)
Definition and_then (r : option H) (k : H -> option H) : option H :=
  match r with Some h => k h | None => None end.

(** A range-based [for] over [xs] with body [body]. *)
Fixpoint for_each (xs : list object) (body : H -> object -> option H)
         (h : H) : option H :=
  match xs with
  | [] => Some h
  | x :: rest => and_then (body h x) (for_each rest body)
  end.

(** Hash append for trivially comparable [T]:
    [h(std::addressof(t), sizeof(t))]. *)
Definition hash_append_trivial (h : H) (t : object) : option H :=
  Some (operator_call h (storage t) (sizeof (type_of t))).

(** Hash append for floating point [T], [t] taken by value:
    [if (t == 0) t = 0; h(std::addressof(t), sizeof(t))].
    [t] is the parameter object, the copy the call makes: its value
    bits are those of the argument, its padding bytes hold what the
    copy left there. *)
Definition hash_append_floating (h : H) (k : floating_kind) (t : Z)
  : option H :=
  let t := if floating_eq_zero k t then assign_zero k t else t in
  Some (operator_call h (storage (VFloating k t)) (sizeof (Floating k))).

(** Arrays of trivially comparable [T]: [h(a, sizeof(a))]. *)
Definition hash_append_array_trivial (h : H) (a : object) : option H :=
  Some (operator_call h (storage a) (sizeof (type_of a))).

(** Arrays of non-trivially comparable type:
    [for (T const& x : a) hash_append(h, a);]
    The body passes the array [a], not the element [x]. *)
Definition hash_append_array (h : H) (a : object) : option H :=
  for_each (elements a) (fun h' x => hash_append h' a) h.

(** Iterator range hash_append:
    [while (first != last) { hash_append(h, *first); ++first; }]
    The valid range [[first, last)] is given by the list of the
    elements it visits; [first == last] is the empty list. *)
Fixpoint hash_append_range (h : H) (range : list object) : option H :=
  match range with
  | [] => Some h
  | x :: rest => and_then (hash_append h x)
                   (fun h' => hash_append_range h' rest)
  end.

(** Optimization for trivially comparable types, [T const*]
    iterators: [h(first, last - first)].  The memory at [first] holds
    the elements of the range; [last - first] is their number. *)
Definition hash_append_pointers (h : H) (range : list object) : option H :=
  Some (operator_call h (flat_map storage range) (List.length range)).

(** A call [hash_append(h, p, q)] on a [pointer_pair]: the pointer
    overload where it is viable, the iterator range overload
    otherwise, on the range the two pointers delimit. *)
Definition hash_append_pointer_pair (h : H) (p q : object) : option H :=
  if pointer_overload_pair p q
  then hash_append_pointers h (pointed_range p q)
  else hash_append_range h (pointed_range p q).

(** Variadic hash_append:
    [hash_append(h, t0); hash_append(h, t1, ts...);]
    With [ts] empty the second call takes one value.  With one value
    in [ts] it is a call with two values: the range overloads take it
    when the two are a [pointer_pair], this overload otherwise.  With
    more it is this overload again. *)
Fixpoint hash_append_variadic (h : H) (t0 t1 : object) (ts : list object)
  : option H :=
  and_then (hash_append h t0)
    (fun h' =>
       match ts with
       | [] => hash_append h' t1
       | t2 :: ts' =>
           match ts' with
           | [] => if pointer_pair t1 t2
                   then hash_append_pointer_pair h' t1 t2
                   else hash_append_variadic h' t1 t2 ts'
           | _ :: _ => hash_append_variadic h' t1 t2 ts'
           end
       end).

(** The call [hash_append(h, t0, t1, ts...)] with two or more values,
    as overload resolution settles it. *)
Definition hash_append_values (h : H) (t0 t1 : object) (ts : list object)
  : option H :=
  match ts with
  | [] => if pointer_pair t0 t1
          then hash_append_pointer_pair h t0 t1
          else hash_append_variadic h t0 t1 ts
  | _ :: _ => hash_append_variadic h t0 t1 ts
  end.

End Overloads.

(** Overload resolution for one value.  The scalar overload takes the
    integral and pointer values, the floating point overload the
    floating point ones.  For an array the split between the two array
    overloads follows their comments: elements trivially comparable or
    not.  That is what resolution selects where the array type is
    [Hashable_with]; where it is not, the call is ambiguous or has no
    viable overload, the program is ill-formed, and the value the
    function has there is no behaviour of the code.  [fuel] bounds the
    depth of the calls that the general array overload makes. *)
Fixpoint hash_append {H : Type} {A : Hash_algorithm H}
         (fuel : nat) (h : H) (t : object) : option H :=
  match t with
  | VIntegral _ _ | VPointer _ _ | VPointerToConst _ _ =>
      hash_append_trivial h t
  | VFloating k bits => hash_append_floating h k bits
  | VArray e _ =>
      if trivially_comparable e then hash_append_array_trivial h t
      else match fuel with
           | O => None
           | S fuel' => hash_append_array (hash_append fuel') h t
           end
  end.

(** ** Universal hash function

    [H hasher; hash_append(hasher, t); return hasher;] *)
Definition hash {H : Type} {A : Hash_algorithm H} {F : Functor_ready H}
           (fuel : nat) (t : object) : option result_type :=
  match hash_append fuel default_constructed t with
  | Some hasher => Some (converted hasher)
  | None => None
  end.

(** ** What the debug hasher records

    The bytes one [hash_append(h, t)] adds to a fresh [debug_hasher],
    as [h.value()] shows them. *)
Definition absorbed (fuel : nat) (t : object) : option (list byte) :=
  match hash_append fuel fresh_debug_hasher t with
  | Some h => Some (value h)
  | None => None
  end.

(** An object of a trivially comparable type, all of whose elements
    have their declared type. *)
Definition uniquely_represented (t : object) : bool :=
  trivially_comparable (type_of t) && well_typed t.

(** The objects on which overload resolution never selects the general
    array overload. *)
Definition avoids_general_array (t : object) : bool :=
  match t with
  | VArray e _ => trivially_comparable e
  | _ => true
  end.

(** Every call with two or more values that [hash_append(h, t0, t1,
    ts...)] makes, itself included, selects the variadic overload: the
    last two values are not a [pointer_pair]. *)
Fixpoint selects_variadic (t0 t1 : object) (ts : list object) : bool :=
  match ts with
  | [] => negb (pointer_pair t0 t1)
  | t2 :: ts' => selects_variadic t1 t2 ts'
  end.

End Append.

(* ------------------------------------------------------------------ *)
(** * The driver, hashing.test/debug.cpp *)

Module Debug.
Import Ty Obj Hasher Append.

Local Notation "h <- c ;; k" := (and_then c (fun h => k))
  (at level 61, c at next level, right associativity).

Definition newline : string := String (Ascii.ascii_of_nat 10) EmptyString.

Definition hex_digit (d : N) : Ascii.ascii :=
  nth (N.to_nat d)
      (list_ascii_of_string "0123456789abcdef") (Ascii.ascii_of_nat 48).

(** [os << std::setw(2) << (unsigned)c << ' '], hexadecimal, filled
    with ['0']. *)
Definition put_byte (c : byte) : string :=
  String (hex_digit (Byte.to_N c / 16))
    (String (hex_digit (Byte.to_N c mod 16)) " ").

(** The loop of [operator<<]; [n] counts the bytes on the line. *)
Fixpoint put_bytes (buf : list byte) (n : nat) : string :=
  match buf with
  | [] => EmptyString
  | c :: rest =>
      (put_byte c ++
       if Nat.eqb (S n) 16 then newline ++ put_bytes rest 0
       else put_bytes rest (S n))%string
  end.

(** [operator<<(std::ostream&, std::vector<byte> const&)]. *)
Definition insert_bytes (buf : list byte) : string :=
  (put_bytes buf 0 ++ newline)%string.

Section Overloads.
Context {H : Type} {A : Hash_algorithm H}.

(** Hash for a vector: [hash_append(h, v.begin(), v.end())]. *)
Definition hash_append_vector (fuel : nat) (h : H) (v : list object)
  : option H :=
  hash_append_range (hash_append fuel) h v.

(** Hash for a string: [hash_append(h, s.begin(), s.end())]. *)
Definition hash_append_string (fuel : nat) (h : H) (s : list object)
  : option H :=
  hash_append_range (hash_append fuel) h s.
End Overloads.

(** The characters of a [std::string]. *)
Definition chars (s : string) : list object :=
  map (fun c => VIntegral Char (Z.of_nat (Ascii.nat_of_ascii c)))
      (list_ascii_of_string s).

(** The bit pattern of the [double] nearest to 3.1415. *)
Definition double_3_1415 : Z := 0x400921cac083126f.

(** What [main] records, before it is printed. *)
Definition main_hasher (fuel : nat) : option debug_hasher :=
  h <- Some fresh_debug_hasher ;;
  h <- hash_append fuel h (VIntegral Int 5) ;;
  h <- hash_append fuel h (VIntegral Bool 1) ;;
  h <- hash_append fuel h (VFloating Double double_3_1415) ;;
  h <- hash_append_vector fuel h
         [VIntegral Int 1; VIntegral Int 2; VIntegral Int 3] ;;
  hash_append_string fuel h (chars "abcdef").

(** [std::cout << h.value() << '\n'] *)
Definition main (fuel : nat) : option string :=
  match main_hasher fuel with
  | Some h => Some (insert_bytes (value h) ++ newline)%string
  | None => None
  end.

(** ** Reading the output back

    The inverse of [operator<<], used to show that the printed text
    determines the bytes: two hexadecimal digits and a separator give
    a byte, line ends are skipped. *)
Definition digit_value (a : Ascii.ascii) : N :=
  let n := Ascii.N_of_ascii a in
  if (n <? 58)%N then (n - 48)%N else (n - 87)%N.

Definition read_byte (a b : Ascii.ascii) : byte :=
  match Byte.of_N (digit_value a * 16 + digit_value b) with
  | Some c => c
  | None => Byte.x00
  end.

Fixpoint read_bytes (s : string) : list byte :=
  match s with
  | EmptyString => []
  | String a rest =>
      if Ascii.eqb a (Ascii.ascii_of_nat 10) then read_bytes rest
      else match rest with
           | String b (String _ rest') => read_byte a b :: read_bytes rest'
           | _ => []
           end
  end.

End Debug.

(* ------------------------------------------------------------------ *)
(** * Properties *)

Import Ty Obj Hasher Append.
Unset Implicit Arguments.

(** ** Types and the trait *)

Lemma trivially_comparable_remove_extent (t : ctype) :
  trivially_comparable (remove_extent t) = trivially_comparable t.
Proof.
  induction t as [k|k|p _|e IH n|e IH|c s]; simpl; try reflexivity.
  - simp trivially_comparable. now rewrite IH.
  - simp trivially_comparable. now rewrite IH.
Qed.

Lemma trivially_comparable_array (e : ctype) (n : nat) :
  trivially_comparable (Array e n) = trivially_comparable e.
Proof.
  simp trivially_comparable. apply trivially_comparable_remove_extent.
Qed.

Lemma trivially_comparable_unbounded (e : ctype) :
  trivially_comparable (UnboundedArray e) = trivially_comparable e.
Proof.
  simp trivially_comparable. apply trivially_comparable_remove_extent.
Qed.

Lemma ctype_eqb_eq (s t : ctype) : ctype_eqb s t = true -> s = t.
Proof.
  revert t.
  induction s as [j|j|p IH|d IH m|d IH|a x]; intros [k|k|q|e n|e|b y];
    simpl; try discriminate.
  - destruct j, k; (reflexivity || discriminate).
  - destruct j, k; (reflexivity || discriminate).
  - intros E. f_equal. now apply IH.
  - intros E. apply andb_true_iff in E. destruct E as [E1 E2].
    apply Nat.eqb_eq in E2. f_equal; [now apply IH | assumption].
  - intros E. f_equal. now apply IH.
  - intros E. apply andb_true_iff in E. destruct E as [E1 E2].
    apply String.eqb_eq in E1. apply Bool.eqb_prop in E2. congruence.
Qed.

(** ** Objects and their storage *)

(** Induction on objects, with the hypothesis for every element of an
    array. *)
Fixpoint object_elements_ind (P : object -> Prop)
  (Pintegral : forall k n, P (VIntegral k n))
  (Pfloating : forall k b, P (VFloating k b))
  (Ppointer : forall p a, P (VPointer p a))
  (Pconst : forall p a, P (VPointerToConst p a))
  (Parray : forall e xs, Forall P xs -> P (VArray e xs))
  (v : object) {struct v} : P v :=
  match v with
  | VIntegral k n => Pintegral k n
  | VFloating k b => Pfloating k b
  | VPointer p a => Ppointer p a
  | VPointerToConst p a => Pconst p a
  | VArray e xs =>
      Parray e xs
        ((fix all (l : list object) : Forall P l :=
            match l with
            | [] => Forall_nil P
            | x :: r =>
                Forall_cons x
                  (object_elements_ind P Pintegral Pfloating Ppointer
                     Pconst Parray x)
                  (all r)
            end) xs)
  end.

(** [sizeof] is the number of bytes of the storage. *)
Lemma length_storage (v : object) :
  well_typed v = true -> List.length (storage v) = sizeof (type_of v).
Proof.
  induction v as [k n|k b|p a|p a|e xs IH] using object_elements_ind;
    simpl; intros W; try apply length_le_split; try reflexivity.
  induction IH as [|x r Hx _ IHr]; simpl in *; [reflexivity|].
  apply andb_true_iff in W. destruct W as [Wx Wr].
  apply andb_true_iff in Wx. destruct Wx as [Tx Wx].
  apply ctype_eqb_eq in Tx.
  rewrite length_app, (Hx Wx), (IHr Wr), Tx. reflexivity.
Qed.

Lemma firstn_sizeof_storage (v : object) :
  well_typed v = true -> firstn (sizeof (type_of v)) (storage v) = storage v.
Proof.
  intros W. rewrite <- (length_storage v W). apply firstn_all.
Qed.

Lemma le_split_zero (n : nat) : le_split n 0 = repeat Byte.x00 n.
Proof.
  induction n as [|n IH]; [reflexivity|].
  change (le_split (S n) 0) with (byte.of_Z 0 :: le_split n (Z.shiftr 0 8)).
  rewrite Z.shiftr_0_l, IH. reflexivity.
Qed.

(** ** Overload resolution *)

Section AnyAlgorithm.
Context {H : Type} {A : Hash_algorithm H}.

Lemma hash_append_equation (fuel : nat) (h : H) (t : object) :
  hash_append fuel h t
  = match t with
    | VIntegral _ _ | VPointer _ _ | VPointerToConst _ _ =>
        hash_append_trivial h t
    | VFloating k bits => hash_append_floating h k bits
    | VArray e _ =>
        if trivially_comparable e then hash_append_array_trivial h t
        else match fuel with
             | O => None
             | S fuel' => hash_append_array (hash_append fuel') h t
             end
    end.
Proof. destruct fuel; reflexivity. Qed.

(** A trivially comparable object is handed to the algorithm as it
    lies in memory, in one call. *)
Lemma hash_append_trivially_comparable (fuel : nat) (h : H) (t : object) :
  trivially_comparable (type_of t) = true ->
  hash_append fuel h t
  = Some (operator_call h (storage t) (sizeof (type_of t))).
Proof.
  rewrite hash_append_equation.
  destruct t as [k n|k b|p a|p a|e xs]; simpl; intros T.
  - reflexivity.
  - simp trivially_comparable in T. discriminate.
  - reflexivity.
  - reflexivity.
  - rewrite trivially_comparable_array in T. rewrite T. reflexivity.
Qed.

Lemma for_each_none (xs : list object) (body : H -> object -> option H)
      (h : H) :
  xs <> [] -> (forall h' x, body h' x = None) -> for_each xs body h = None.
Proof.
  destruct xs as [|x r]; [congruence|].
  intros _ B. simpl. rewrite B. reflexivity.
Qed.

(** The general array overload calls itself on the same array: with
    at least one element no amount of fuel lets it return. *)
Lemma general_array_diverges (fuel : nat) :
  forall (h : H) (e : ctype) (xs : list object),
    trivially_comparable e = false -> xs <> [] ->
    hash_append fuel h (VArray e xs) = None.
Proof.
  induction fuel as [|fuel IH]; intros h e xs T N;
    rewrite hash_append_equation, T.
  - reflexivity.
  - unfold hash_append_array. simpl.
    apply for_each_none; [assumption|].
    intros h' _. apply IH; assumption.
Qed.

(** Where the general array overload is not selected the call
    returns, whatever the fuel. *)
Lemma hash_append_returns (fuel : nat) (h : H) (t : object) :
  avoids_general_array t = true ->
  exists h', forall fuel', hash_append fuel' h t = Some h'.
Proof.
  destruct t as [k n|k b|p a|p a|e xs]; simpl; intros T;
    eexists; intros fuel'; rewrite hash_append_equation;
    rewrite ?T; reflexivity.
Qed.

(** The outcome of a call that returns does not depend on the fuel. *)
Lemma hash_append_fuel_irrelevant (fuel1 fuel2 : nat) (h h1 h2 : H)
      (t : object) :
  hash_append fuel1 h t = Some h1 -> hash_append fuel2 h t = Some h2 ->
  h1 = h2.
Proof.
  destruct (avoids_general_array t) eqn:G.
  - destruct (hash_append_returns 0 h t G) as [h' R].
    rewrite !R. congruence.
  - destruct t as [k n|k b|p a|p a|e xs]; try discriminate. simpl in G.
    destruct xs as [|x r].
    + rewrite !hash_append_equation, G.
      destruct fuel1, fuel2; unfold hash_append_array; simpl; congruence.
    + rewrite (general_array_diverges fuel1 h e (x :: r) G);
        [discriminate|congruence].
Qed.

End AnyAlgorithm.

(** ** The debug hasher *)

Lemma debug_hasher_eta (h : debug_hasher) : {| buf_ := buf_ h |} = h.
Proof. destruct h; reflexivity. Qed.

(** A call on any [debug_hasher] appends what the same call records in
    a fresh one. *)
Lemma hash_append_debug (fuel : nat) (h : debug_hasher) (t : object) :
  hash_append fuel h t
  = match absorbed fuel t with
    | Some bytes => Some {| buf_ := buf_ h ++ bytes |}
    | None => None
    end.
Proof.
  unfold absorbed.
  destruct (avoids_general_array t) eqn:G.
  - rewrite !hash_append_equation.
    destruct t as [k n|k b|p a|p a|e xs]; simpl in *; rewrite ?G; reflexivity.
  - destruct t as [k n|k b|p a|p a|e xs]; try discriminate. simpl in G.
    destruct xs as [|x r].
    + rewrite !hash_append_equation, G.
      destruct fuel; [reflexivity|]. unfold hash_append_array. simpl.
      rewrite app_nil_r, debug_hasher_eta. reflexivity.
    + rewrite !(general_array_diverges fuel _ e (x :: r) G) by congruence.
      reflexivity.
Qed.

Lemma absorbed_uniquely_represented (fuel : nat) (t : object) :
  uniquely_represented t = true -> absorbed fuel t = Some (storage t).
Proof.
  unfold uniquely_represented, absorbed. intros U.
  apply andb_true_iff in U. destruct U as [T W].
  rewrite (hash_append_trivially_comparable fuel _ t T). simpl.
  rewrite (firstn_sizeof_storage t W). reflexivity.
Qed.

(** The iterator range overload on a [debug_hasher]: the bytes of the
    elements, one after the other. *)
Lemma hash_append_range_debug (fuel : nat) (range : list object) :
  forall (h : debug_hasher) (bytes : list (list byte)),
    Forall2 (fun x e => absorbed fuel x = Some e) range bytes ->
    hash_append_range (hash_append fuel) h range
    = Some {| buf_ := buf_ h ++ concat bytes |}.
Proof.
  induction range as [|x rest IH]; intros h bytes F; inversion F; subst; simpl.
  - rewrite app_nil_r, debug_hasher_eta. reflexivity.
  - rewrite hash_append_debug.
    match goal with E : absorbed _ _ = Some _ |- _ => rewrite E end.
    simpl. erewrite IH by eassumption. simpl. rewrite app_assoc. reflexivity.
Qed.

Lemma Forall2_absorbed_storage (fuel : nat) (range : list object) :
  forallb uniquely_represented range = true ->
  Forall2 (fun x e => absorbed fuel x = Some e) range (map storage range).
Proof.
  induction range as [|x rest IH]; simpl; intros U; constructor.
  - apply andb_true_iff in U. apply absorbed_uniquely_represented, U.
  - apply IH. apply andb_true_iff in U. apply U.
Qed.

(** ** Scalars *)

(** C5.  For every trivially comparable scalar [v], [hash_append] on a
    debug hasher appends exactly the [sizeof(v)] bytes of the storage of
    [v], unmodified: it returns with [buf_] extended by [storage v],
    that storage is [sizeof] bytes long, and read back as a little
    endian number it is the number [v] holds, to the width of its
    type.  (The [int] 5 gives 05 00 00 00, see the witness.) *)
Theorem scalar_absorbed_as_stored :
  forall (fuel : nat) (h : debug_hasher) (v : object),
    scalar (type_of v) = true ->
    trivially_comparable (type_of v) = true ->
    hash_append fuel h v = Some {| buf_ := buf_ h ++ storage v |}
    /\ List.length (storage v) = sizeof (type_of v)
    /\ le_combine (storage v)
       = scalar_number v mod 2 ^ (Z.of_nat (sizeof (type_of v)) * 8).
Proof.
  intros fuel h v S T.
  assert (W : well_typed v = true) by (destruct v; simpl in *; congruence).
  repeat split.
  - rewrite hash_append_debug, absorbed_uniquely_represented; [reflexivity|].
    unfold uniquely_represented. now rewrite T, W.
  - apply length_storage, W.
  - destruct v as [k n|k b|p a|p a|e xs]; simpl in *;
      try apply le_combine_split; discriminate.
Qed.

Lemma scalar_absorbed_as_stored_witness :
  hash_append 0 fresh_debug_hasher (VIntegral Int 5)
  = Some {| buf_ := [Byte.x05; Byte.x00; Byte.x00; Byte.x00] |}.
Proof.
  exact (proj1 (scalar_absorbed_as_stored 0 fresh_debug_hasher
                  (VIntegral Int 5) eq_refl eq_refl)).
Defined.

(** ** Ranges *)

(** C4.  For every iterator range whose elements are of a trivially
    comparable type, the iterator range overload returns, and the debug
    hasher has then recorded, after what it held, the bytes each
    element records on its own (its storage), in the order of the
    traversal and with nothing before, between or after them. *)
Theorem range_absorbs_concatenation :
  forall (fuel : nat) (h : debug_hasher) (range : list object),
    forallb uniquely_represented range = true ->
    Forall2 (fun x e => absorbed fuel x = Some e) range (map storage range)
    /\ hash_append_range (hash_append fuel) h range
       = Some {| buf_ := buf_ h ++ concat (map storage range) |}.
Proof.
  intros fuel h range U.
  pose proof (Forall2_absorbed_storage fuel range U) as F.
  split; [exact F|]. apply hash_append_range_debug, F.
Qed.

(** The two sequences of the driver: [{1, 2, 3}] and ["abcdef"]. *)
Lemma range_absorbs_concatenation_witness :
  Debug.hash_append_vector 0 fresh_debug_hasher
    [VIntegral Int 1; VIntegral Int 2; VIntegral Int 3]
  = Some {| buf_ := [Byte.x01; Byte.x00; Byte.x00; Byte.x00;
                     Byte.x02; Byte.x00; Byte.x00; Byte.x00;
                     Byte.x03; Byte.x00; Byte.x00; Byte.x00] |}
  /\ Debug.hash_append_string 0 fresh_debug_hasher (Debug.chars "abcdef")
     = Some {| buf_ := [Byte.x61; Byte.x62; Byte.x63;
                        Byte.x64; Byte.x65; Byte.x66] |}.
Proof.
  split.
  - exact (proj2 (range_absorbs_concatenation 0 fresh_debug_hasher
                    [VIntegral Int 1; VIntegral Int 2; VIntegral Int 3]
                    eq_refl)).
  - exact (proj2 (range_absorbs_concatenation 0 fresh_debug_hasher
                    (Debug.chars "abcdef") eq_refl)).
Defined.

(** C10.  On an empty iterator range ([first == last]) the iterator
    range overload returns the accumulator as it was, without a call on
    it, whatever the algorithm; the pointer overload calls a debug
    hasher with length 0, which leaves it as it was too. *)
Theorem empty_range_leaves_accumulator_unchanged :
  (forall (H : Type) (A : Hash_algorithm H) (fuel : nat) (h : H)
          (c : list object) (first : nat),
      hash_append_range (hash_append fuel) h (between c first first) = Some h)
  /\ (forall (h : debug_hasher) (c : list object) (first : nat),
         hash_append_pointers h (between c first first) = Some h).
Proof.
  split; intros; unfold between; rewrite Nat.sub_diag; simpl.
  - reflexivity.
  - unfold hash_append_pointers. simpl. unfold debug_call. simpl.
    rewrite app_nil_r, debug_hasher_eta. reflexivity.
Qed.

(** The pointer overload agrees with the iterator range overload when
    every element is one byte wide. *)
Lemma pointer_range_of_bytes (fuel : nat) (h : debug_hasher)
      (range : list object) :
  forallb uniquely_represented range = true ->
  forallb (fun x => Nat.eqb (sizeof (type_of x)) 1) range = true ->
  hash_append_pointers h range = hash_append_range (hash_append fuel) h range.
Proof.
  intros U B.
  rewrite (hash_append_range_debug fuel range h (map storage range)
             (Forall2_absorbed_storage fuel range U)).
  unfold hash_append_pointers. simpl. unfold debug_call. do 2 f_equal.
  rewrite flat_map_concat_map.
  replace (List.length range)
    with (List.length (concat (map storage range)));
    [now rewrite firstn_all|].
  clear h. induction range as [|x rest IH]; [reflexivity|]. simpl in *.
  apply andb_true_iff in U. destruct U as [Ux Ur].
  apply andb_true_iff in B. destruct B as [Bx Br].
  apply andb_true_iff in Ux. destruct Ux as [_ Wx].
  apply Nat.eqb_eq in Bx.
  rewrite length_app, (length_storage x Wx), Bx, (IH Ur Br). reflexivity.
Qed.

(** C2.  The pointer overload hands the algorithm the memory of the
    range with the length [last - first], the number of elements: a
    debug hasher records that many bytes, not [(last - first) *
    sizeof(T)].  On the [int const] range [{1, 2, 3}] it records
    01 00 00, where the iterator range overload records the twelve
    bytes of the three elements. *)
Theorem pointer_range_absorbs_one_byte_per_element :
  (forall (h : debug_hasher) (range : list object),
      hash_append_pointers h range
      = Some {| buf_ := buf_ h
                        ++ firstn (List.length range)
                                  (concat (map storage range)) |})
  /\ hash_append_pointers fresh_debug_hasher
       [VIntegral Int 1; VIntegral Int 2; VIntegral Int 3]
     = Some {| buf_ := [Byte.x01; Byte.x00; Byte.x00] |}
  /\ hash_append_range (hash_append 0) fresh_debug_hasher
       [VIntegral Int 1; VIntegral Int 2; VIntegral Int 3]
     = Some {| buf_ := [Byte.x01; Byte.x00; Byte.x00; Byte.x00;
                        Byte.x02; Byte.x00; Byte.x00; Byte.x00;
                        Byte.x03; Byte.x00; Byte.x00; Byte.x00] |}.
Proof.
  repeat split.
  intros h range. unfold hash_append_pointers.
  rewrite flat_map_concat_map. reflexivity.
Qed.

(** ** Arrays *)

(** C3.  The general array overload does not encode the elements: its
    loop body calls [hash_append] on the array itself, so on an array
    with at least one element, of a type that is not trivially
    comparable, the call never returns (no fuel suffices), whatever the
    algorithm and whatever it held. *)
Theorem general_array_overload_never_returns :
  forall (H : Type) (A : Hash_algorithm H) (fuel : nat) (h : H)
         (e : ctype) (x : object) (xs : list object),
    trivially_comparable e = false ->
    hash_append fuel h (VArray e (x :: xs)) = None.
Proof.
  intros H A fuel h e x xs T.
  apply general_array_diverges; [exact T | discriminate].
Qed.

(** [double a[2] = {1.0, 2.0}]: each element alone records its eight
    bytes, the array nothing. *)
Lemma general_array_overload_never_returns_witness :
  absorbed 0 (VFloating Double 0x3ff0000000000000)
  = Some [Byte.x00; Byte.x00; Byte.x00; Byte.x00;
          Byte.x00; Byte.x00; Byte.xf0; Byte.x3f]
  /\ absorbed 0 (VFloating Double 0x4000000000000000)
     = Some [Byte.x00; Byte.x00; Byte.x00; Byte.x00;
             Byte.x00; Byte.x00; Byte.x00; Byte.x40]
  /\ hash_append 1000 fresh_debug_hasher
       (VArray (Floating Double)
          [VFloating Double 0x3ff0000000000000;
           VFloating Double 0x4000000000000000])
     = None.
Proof.
  split; [reflexivity|]. split; [reflexivity|].
  apply general_array_overload_never_returns. reflexivity.
Defined.

(** ** The trait *)

(** C9.  [trivially_comparable] holds of every integral type and of
    every pointer type, of no floating point type, of an array type
    (of known or unknown bound) exactly when it holds of the element
    type, and of a class type exactly when the program has specialised
    the trait for it; it is computed from the type, so two objects of
    one type are classified alike. *)
Theorem trivially_comparable_classification :
  (forall t, Integral_type t = true -> trivially_comparable t = true)
  /\ (forall p, trivially_comparable (Pointer p) = true)
  /\ (forall t, Floating_point_type t = true -> trivially_comparable t = false)
  /\ (forall e n, trivially_comparable (Array e n) = trivially_comparable e)
  /\ (forall e, trivially_comparable (UnboundedArray e)
                = trivially_comparable e)
  /\ (forall name, trivially_comparable (Class name false) = false
                   /\ trivially_comparable (Class name true) = true)
  /\ (forall v w : object,
         type_of v = type_of w ->
         trivially_comparable (type_of v) = trivially_comparable (type_of w)).
Proof.
  repeat split.
  - intros [k|k|p|e n|e|c s]; simpl; (discriminate || reflexivity).
  - intros [k|k|p|e n|e|c s]; simpl; (discriminate || reflexivity).
  - apply trivially_comparable_array.
  - apply trivially_comparable_unbounded.
  - intros v w E. now rewrite E.
Qed.

Lemma trivially_comparable_classification_witness :
  trivially_comparable (Integral Int) = true
  /\ trivially_comparable (Floating Double) = false
  /\ trivially_comparable (type_of (VIntegral Int 1))
     = trivially_comparable (type_of (VIntegral Int 2)).
Proof.
  destruct trivially_comparable_classification
    as (I & _ & F & _ & _ & _ & V).
  exact (conj (I (Integral Int) eq_refl)
           (conj (F (Floating Double) eq_refl)
              (V (VIntegral Int 1) (VIntegral Int 2) eq_refl))).
Defined.

(** ** Floating point *)

Lemma sign_bit_nonneg (k : floating_kind) : 0 <= sign_bit k.
Proof. destruct k; unfold sign_bit, value_bits; lia. Qed.

(** Among the bit patterns of the width of the type, the comparison
    with zero holds of the two zeros and of nothing else. *)
Lemma floating_eq_zero_iff (k : floating_kind) (x : Z) :
  0 <= x < 2 ^ (sign_bit k + 1) ->
  (floating_eq_zero k x = true <-> x = positive_zero \/ x = negative_zero k).
Proof.
  intros R. unfold floating_eq_zero, positive_zero, negative_zero.
  pose proof (sign_bit_nonneg k) as S.
  rewrite Z.land_ones by exact S. rewrite Z.eqb_eq.
  assert (P : 0 < 2 ^ sign_bit k) by (apply Z.pow_pos_nonneg; lia).
  rewrite Z.pow_add_r, Z.pow_1_r in R by lia.
  split.
  - intros M. pose proof (Z.div_mod x (2 ^ sign_bit k)) as D.
    rewrite M, Z.add_0_r in D.
    assert (Q : 0 <= x / 2 ^ sign_bit k < 2).
    { split; [apply Z.div_pos; lia | apply Z.div_lt_upper_bound; lia]. }
    assert (C : x / 2 ^ sign_bit k = 0 \/ x / 2 ^ sign_bit k = 1) by lia.
    destruct C as [C|C]; rewrite C in D; lia.
  - intros [E|E]; subst x.
    + apply Z.mod_0_l. lia.
    + apply Z.mod_same. lia.
Qed.

Lemma negative_zero_eq_zero (k : floating_kind) :
  floating_eq_zero k (negative_zero k) = true.
Proof. destruct k; reflexivity. Qed.

Lemma positive_zero_eq_zero (k : floating_kind) :
  floating_eq_zero k positive_zero = true.
Proof. destruct k; reflexivity. Qed.

Section AnyFunctor.
Context {H : Type} {A : Hash_algorithm H} {F : Functor_ready H}.

Lemma hash_fuel_irrelevant (fuel1 fuel2 : nat) (t : object)
      (r1 r2 : result_type) :
  hash fuel1 t = Some r1 -> hash fuel2 t = Some r2 -> r1 = r2.
Proof.
  unfold hash.
  destruct (hash_append fuel1 default_constructed t) as [h1|] eqn:E1;
    [|discriminate].
  destruct (hash_append fuel2 default_constructed t) as [h2|] eqn:E2;
    [|discriminate].
  rewrite (hash_append_fuel_irrelevant fuel1 fuel2 _ h1 h2 t E1 E2).
  congruence.
Qed.

End AnyFunctor.

Lemma le_split_inj_width (n : nat) (x y : Z) :
  0 <= x < 2 ^ (Z.of_nat n * 8) -> 0 <= y < 2 ^ (Z.of_nat n * 8) ->
  le_split n x = le_split n y -> x = y.
Proof.
  intros Rx Ry E. apply (f_equal le_combine) in E.
  rewrite !le_combine_split in E.
  rewrite !Z.mod_small in E by assumption. exact E.
Qed.

Lemma value_bits_positive (k : floating_kind) : 0 < value_bits k.
Proof. destruct k; reflexivity. Qed.

(** In a type without padding the value bits are all the bits. *)
Lemma floating_width (k : floating_kind) :
  k <> LongDouble -> value_bits k = Z.of_nat (floating_size k) * 8.
Proof. destruct k; (reflexivity || congruence). Qed.

(** There the store of zero leaves zero bytes only. *)
Lemma storage_assign_zero (k : floating_kind) (x : Z) :
  k <> LongDouble ->
  le_split (floating_size k) (assign_zero k x)
  = repeat Byte.x00 (floating_size k).
Proof.
  intros N. pose proof (value_bits_positive k) as P.
  rewrite le_split_mod. unfold assign_zero.
  rewrite Z.shiftl_mul_pow2 by lia.
  rewrite <- (floating_width k N).
  rewrite Z.mod_mul by (apply Z.pow_nonzero; lia).
  apply le_split_zero.
Qed.

Lemma hash_append_floating_zero {H : Type} {A : Hash_algorithm H}
      (fuel : nat) (h : H) (k : floating_kind) (x : Z) :
  k <> LongDouble ->
  floating_eq_zero k x = true ->
  hash_append fuel h (VFloating k x)
  = Some (operator_call h (repeat Byte.x00 (floating_size k))
            (floating_size k)).
Proof.
  intros N Z0. rewrite hash_append_equation. unfold hash_append_floating.
  rewrite Z0. simpl. rewrite (storage_assign_zero k x N). reflexivity.
Qed.

(** What a debug hasher records of a floating point object. *)
Lemma absorbed_floating (fuel : nat) (k : floating_kind) (x : Z) :
  absorbed fuel (VFloating k x)
  = Some (le_split (floating_size k)
            (if floating_eq_zero k x then assign_zero k x else x)).
Proof.
  unfold absorbed. rewrite hash_append_equation.
  unfold hash_append_floating. simpl.
  rewrite <- (length_le_split (floating_size k)
                (if floating_eq_zero k x then assign_zero k x else x)) at 1.
  rewrite firstn_all. reflexivity.
Qed.

(** C1.  For [float] and [double] and every hash algorithm, a value
    that compares equal to zero is hashed as positive zero is: the
    functor returns, with the same result, and a debug hasher records
    the same bytes, [sizeof] zero bytes; negative zero is such a value.
    For [long double] the overload hands the algorithm all sixteen
    bytes of its parameter, six of them padding that the store of zero
    does not write: a negative zero whose padding holds zeros records
    sixteen zero bytes, a positive zero whose padding holds
    55 55 55 55 00 00 records these six bytes after ten zero bytes, so
    two zeros are not always hashed alike. *)
Theorem floating_zero_normalised_but_padding_absorbed :
  (forall (H : Type) (A : Hash_algorithm H) (F : Functor_ready H)
          (fuel : nat) (k : floating_kind),
      k <> LongDouble ->
      (forall x : Z,
          floating_eq_zero k x = true ->
          hash fuel (VFloating k x) = hash fuel (VFloating k positive_zero)
          /\ (exists r, hash fuel (VFloating k x) = Some r)
          /\ absorbed fuel (VFloating k x)
             = absorbed fuel (VFloating k positive_zero)
          /\ absorbed fuel (VFloating k x)
             = Some (repeat Byte.x00 (sizeof (Floating k))))
      /\ hash fuel (VFloating k (negative_zero k))
         = hash fuel (VFloating k positive_zero))
  /\ floating_eq_zero LongDouble (negative_zero LongDouble) = true
  /\ floating_eq_zero LongDouble (0x55555555 * 2 ^ 80) = true
  /\ absorbed 0 (VFloating LongDouble (negative_zero LongDouble))
     = Some (repeat Byte.x00 16)
  /\ absorbed 0 (VFloating LongDouble (0x55555555 * 2 ^ 80))
     = Some (repeat Byte.x00 10
             ++ [Byte.x55; Byte.x55; Byte.x55; Byte.x55;
                 Byte.x00; Byte.x00]).
Proof.
  split; [|repeat split].
  intros H A F fuel k N.
  assert (G : forall x, floating_eq_zero k x = true ->
                        hash fuel (VFloating k x)
                        = Some (converted
                                  (operator_call default_constructed
                                     (repeat Byte.x00 (floating_size k))
                                     (floating_size k)))).
  { intros x Z0. unfold hash.
    rewrite (hash_append_floating_zero fuel _ k x N Z0). reflexivity. }
  assert (D : forall x, floating_eq_zero k x = true ->
                        absorbed fuel (VFloating k x)
                        = Some (repeat Byte.x00 (floating_size k))).
  { intros x Z0. rewrite absorbed_floating, Z0.
    rewrite (storage_assign_zero k x N). reflexivity. }
  pose proof (positive_zero_eq_zero k) as P0.
  pose proof (negative_zero_eq_zero k) as N0.
  split.
  - intros x Z0. rewrite !(G x Z0), !(G _ P0), !(D x Z0), !(D _ P0).
    repeat split. eexists. reflexivity.
  - rewrite (G _ N0), (G _ P0). reflexivity.
Qed.

(** [-0.0] and [+0.0] as [double], through the functor on a debug
    hasher. *)
Lemma floating_zero_normalised_but_padding_absorbed_witness :
  hash (F := debug_hasher_converting) 0 (VFloating Double (2 ^ 63))
  = hash (F := debug_hasher_converting) 0 (VFloating Double 0).
Proof.
  refine (proj1 (proj1 (proj1 floating_zero_normalised_but_padding_absorbed
                          debug_hasher debug_hasher_algorithm
                          debug_hasher_converting 0%nat Double _)
                   (2 ^ 63) eq_refl)).
  discriminate.
Defined.

(** ** The universal hash function *)

Lemma long_double_eq_zero_padding (v p : Z) :
  0 <= v < 2 ^ 80 ->
  floating_eq_zero LongDouble (v + p * 2 ^ 80)
  = floating_eq_zero LongDouble v.
Proof.
  intros R. unfold floating_eq_zero, sign_bit. simpl value_bits.
  rewrite !Z.land_ones by lia. f_equal.
  replace (v + p * 2 ^ 80) with (v + (p * 2) * 2 ^ (80 - 1)).
  - apply Z.mod_add. apply Z.pow_nonzero; lia.
  - change (2 ^ 80) with (2 * 2 ^ (80 - 1)). ring.
Qed.

Lemma long_double_padding (v p : Z) :
  0 <= v < 2 ^ 80 -> padding LongDouble (v + p * 2 ^ 80) = p.
Proof.
  intros R. unfold padding. simpl value_bits.
  rewrite Z.shiftr_div_pow2 by lia.
  rewrite Z.div_add by lia. rewrite Z.div_small by exact R. reflexivity.
Qed.

(** C7.  The result of the functor is not a function of the value
    alone.  A [long double] reaches the floating point overload as a
    copy whose six padding bytes are not set by the copy, and the
    overload hands the algorithm all sixteen bytes: two computations
    on one value [v] whose copies hold the paddings [p] and [q] give
    different results on a debug hasher as soon as [p] and [q] differ.
    And on an array of two [double] the functor gives no result at
    all, for every algorithm. *)
Theorem hash_depends_on_padding_or_does_not_return :
  (forall (fuel : nat) (v p q : Z),
      0 <= v < 2 ^ 80 -> 0 <= p < 2 ^ 48 -> 0 <= q < 2 ^ 48 -> p <> q ->
      hash (F := debug_hasher_converting) fuel
        (VFloating LongDouble (v + p * 2 ^ 80))
      <> hash (F := debug_hasher_converting) fuel
           (VFloating LongDouble (v + q * 2 ^ 80)))
  /\ (forall (H : Type) (A : Hash_algorithm H) (F : Functor_ready H)
             (fuel : nat),
         hash fuel
           (VArray (Floating Double)
              [VFloating Double 0x3ff0000000000000;
               VFloating Double 0x4000000000000000])
         = None).
Proof.
  split.
  - intros fuel v p q Rv Rp Rq N E.
    assert (B : forall x, hash (F := debug_hasher_converting) fuel x
                          = absorbed fuel x).
    { intros x. unfold hash, absorbed. simpl.
      destruct (hash_append fuel fresh_debug_hasher x); reflexivity. }
    rewrite !B, !absorbed_floating in E.
    rewrite !long_double_eq_zero_padding in E by exact Rv.
    unfold assign_zero in E. rewrite !long_double_padding in E by exact Rv.
    simpl value_bits in E. rewrite !Z.shiftl_mul_pow2 in E by lia.
    assert (W : forall r, 0 <= r < 2 ^ 48 ->
                          0 <= r * 2 ^ 80 < 2 ^ (Z.of_nat 16 * 8)
                          /\ 0 <= v + r * 2 ^ 80 < 2 ^ (Z.of_nat 16 * 8)).
    { intros r Rr. change (2 ^ (Z.of_nat 16 * 8)) with (2 ^ 48 * 2 ^ 80).
      assert (0 < 2 ^ 80) by reflexivity. nia. }
    destruct (W p Rp) as [Wp Wvp]. destruct (W q Rq) as [Wq Wvq].
    apply (f_equal (fun o => match o with
                             | Some l => le_combine l
                             | None => 0
                             end)) in E.
    assert (P80 : 0 < 2 ^ 80) by reflexivity.
    destruct (floating_eq_zero LongDouble v); cbv beta iota in E;
      rewrite !le_combine_split in E;
      rewrite !Z.mod_small in E by assumption; nia.
  - intros H A F fuel. unfold hash.
    rewrite (general_array_diverges fuel default_constructed
               (Floating Double)
               [VFloating Double 0x3ff0000000000000;
                VFloating Double 0x4000000000000000]); [reflexivity | | ].
    + simp trivially_comparable. reflexivity.
    + discriminate.
Qed.

(** The [long double] 1.0 in two copies, one with zeros in its padding
    and one with 55 55 55 55 00 00. *)
Lemma hash_depends_on_padding_or_does_not_return_witness :
  hash (F := debug_hasher_converting) 0
    (VFloating LongDouble (0x3fff8000000000000000 + 0 * 2 ^ 80))
  <> hash (F := debug_hasher_converting) 0
       (VFloating LongDouble (0x3fff8000000000000000 + 0x55555555 * 2 ^ 80)).
Proof.
  apply (proj1 hash_depends_on_padding_or_does_not_return 0%nat
           0x3fff8000000000000000 0 0x55555555).
  - split; [discriminate | reflexivity].
  - split; [discriminate | reflexivity].
  - split; [discriminate | reflexivity].
  - discriminate.
Defined.

Lemma for_each_ext {H : Type} (xs : list object)
      (body1 body2 : H -> object -> option H) :
  (forall h x, body1 h x = body2 h x) ->
  forall h, for_each xs body1 h = for_each xs body2 h.
Proof.
  intros E. induction xs as [|x r IH]; intros h; simpl; [reflexivity|].
  rewrite E. destruct (body2 h x); simpl; [apply IH|reflexivity].
Qed.

(** [hash_append] uses nothing of the algorithm but its call. *)
Lemma hash_append_with_value {H V : Type} (A : Hash_algorithm H)
      (f : H -> V) (fuel : nat) :
  forall (h : H) (t : object),
    hash_append (A := with_value A f) fuel h t = hash_append (A := A) fuel h t.
Proof.
  induction fuel as [|fuel IH]; intros h t;
    rewrite (hash_append_equation (A := A)),
            (hash_append_equation (A := with_value A f));
    destruct t as [k n|k b|p a|p a|e xs]; try reflexivity;
    destruct (trivially_comparable e); try reflexivity.
  unfold hash_append_array. apply for_each_ext. intros h' _. apply IH.
Qed.

(** C8.  The functor default constructs an accumulator, makes one call
    of [hash_append] on it, and returns the accumulator converted to
    [result_type]; [value()] is not called: with any other [value()]
    in its place the functor returns the same. *)
Theorem hash_returns_the_conversion :
  forall (H : Type) (A : Hash_algorithm H) (F : Functor_ready H)
         (fuel : nat) (t : object),
    hash fuel t
    = option_map converted (hash_append fuel default_constructed t)
    /\ forall (V : Type) (f : H -> V),
         hash (A := with_value A f) fuel t = hash (A := A) fuel t.
Proof.
  intros H A F fuel t. split.
  - unfold hash. destruct (hash_append fuel default_constructed t);
      reflexivity.
  - intros V f. unfold hash.
    rewrite (hash_append_with_value A f). reflexivity.
Qed.

(** ** Several values *)

Lemma app_eq_length_inv {X : Type} (a b c d : list X) :
  List.length a = List.length b -> a ++ c = b ++ d -> a = b.
Proof.
  revert b. induction a as [|x a IH]; intros [|y b] L E;
    simpl in *; try discriminate; [reflexivity|].
  injection E as -> E. f_equal. apply IH; [lia|exact E].
Qed.

Lemma ctype_eqb_refl (t : ctype) : ctype_eqb t t = true.
Proof.
  induction t as [k|k|p IH|e IH n|e IH|c s]; simpl.
  - destruct k; reflexivity.
  - destruct k; reflexivity.
  - exact IH.
  - now rewrite IH, Nat.eqb_refl.
  - exact IH.
  - now rewrite String.eqb_refl, Bool.eqb_reflx.
Qed.

Lemma ctype_eqb_sym (s t : ctype) : ctype_eqb s t = ctype_eqb t s.
Proof.
  destruct (ctype_eqb s t) eqn:E.
  - apply ctype_eqb_eq in E. subst t. symmetry. apply ctype_eqb_refl.
  - destruct (ctype_eqb t s) eqn:E'; [|reflexivity].
    apply ctype_eqb_eq in E'. subst t.
    rewrite ctype_eqb_refl in E. discriminate.
Qed.

Lemma pointer_pair_sym (a b : object) : pointer_pair a b = pointer_pair b a.
Proof.
  destruct a as [k n|k x|p i|p i|e xs], b as [l m|l y|q j|q j|f ys];
    simpl; try reflexivity; rewrite (ctype_eqb_sym p q);
    destruct (ctype_eqb q p) eqn:E; try reflexivity;
    apply ctype_eqb_eq in E; subst q; reflexivity.
Qed.

(** Where every call selects it, the variadic overload is the only one
    at work, whatever the memory holds. *)
Lemma hash_append_values_variadic {H : Type} {A : Hash_algorithm H}
      (fuel : nat) (memory : object -> object -> list object)
      (h : H) (t0 t1 : object) (ts : list object) :
  selects_variadic t0 t1 ts = true ->
  hash_append_values (hash_append fuel) memory h t0 t1 ts
  = hash_append_variadic (hash_append fuel) memory h t0 t1 ts.
Proof.
  destruct ts as [|t2 ts']; [|reflexivity].
  simpl. intros S. apply negb_true_iff in S.
  unfold hash_append_values. rewrite S. reflexivity.
Qed.

Lemma hash_append_variadic_as_range {H : Type} {A : Hash_algorithm H}
      (fuel : nat) (memory : object -> object -> list object)
      (ts : list object) :
  forall (h : H) (t0 t1 : object),
    selects_variadic t0 t1 ts = true ->
    hash_append_variadic (hash_append fuel) memory h t0 t1 ts
    = hash_append_range (hash_append fuel) h (t0 :: t1 :: ts).
Proof.
  induction ts as [|t2 ts' IH]; intros h t0 t1 S.
  - simpl. destruct (hash_append fuel h t0) as [h'|]; simpl; [|reflexivity].
    destruct (hash_append fuel h' t1); reflexivity.
  - change (hash_append_variadic (hash_append fuel) memory h t0 t1
              (t2 :: ts'))
      with (and_then (hash_append fuel h t0)
              (fun h' =>
                 match ts' with
                 | [] => if pointer_pair t1 t2
                         then hash_append_pointer_pair (hash_append fuel)
                                memory h' t1 t2
                         else hash_append_variadic (hash_append fuel)
                                memory h' t1 t2 ts'
                 | _ :: _ => hash_append_variadic (hash_append fuel)
                               memory h' t1 t2 ts'
                 end)).
    change (hash_append_range (hash_append fuel) h (t0 :: t1 :: t2 :: ts'))
      with (and_then (hash_append fuel h t0)
              (fun h' => hash_append_range (hash_append fuel) h'
                           (t1 :: t2 :: ts'))).
    destruct (hash_append fuel h t0) as [h'|]; [|reflexivity].
    unfold and_then. simpl in S.
    rewrite <- (IH h' t1 t2 S).
    destruct ts' as [|t3 ts'']; [|reflexivity].
    simpl in S. apply negb_true_iff in S. rewrite S. reflexivity.
Qed.

(** The call with several values on a [debug_hasher]. *)
Lemma hash_append_values_debug (fuel : nat)
      (memory : object -> object -> list object) (ts : list object)
      (h : debug_hasher) (t0 t1 : object) (bytes : list (list byte)) :
  selects_variadic t0 t1 ts = true ->
  Forall2 (fun t e => absorbed fuel t = Some e) (t0 :: t1 :: ts) bytes ->
  hash_append_values (hash_append fuel) memory h t0 t1 ts
  = Some {| buf_ := buf_ h ++ concat bytes |}.
Proof.
  intros S F.
  rewrite (hash_append_values_variadic fuel memory h t0 t1 ts S).
  rewrite (hash_append_variadic_as_range fuel memory ts h t0 t1 S).
  apply hash_append_range_debug, F.
Qed.

(** C6, as stated, fails, in two ways.  The [unsigned char] 1 records
    01 and the [unsigned short] 257 records 01 01, two distinct
    non-empty encodings, and the two orders record the same three
    bytes.  And with [int const* p, q] that delimit the two [int]s 7
    and 8, [hash_append(h, 5, p, q)] does not record the encodings of
    its three arguments one after the other (twenty bytes): the call
    [hash_append(h, p, q)] in the body of the variadic overload is
    taken by the pointer overload, and the six bytes 05 00 00 00 07 00
    are recorded. *)
Lemma variadic_order_counterexample :
  absorbed 0 (VIntegral UChar 1) = Some [Byte.x01]
  /\ absorbed 0 (VIntegral UShort 257) = Some [Byte.x01; Byte.x01]
  /\ selects_variadic (VIntegral UChar 1) (VIntegral UShort 257) [] = true
  /\ selects_variadic (VIntegral UShort 257) (VIntegral UChar 1) [] = true
  /\ hash_append_values (hash_append 0) (fun _ _ => []) fresh_debug_hasher
       (VIntegral UChar 1) (VIntegral UShort 257) []
     = hash_append_values (hash_append 0) (fun _ _ => []) fresh_debug_hasher
         (VIntegral UShort 257) (VIntegral UChar 1) []
  /\ absorbed 0 (VIntegral Int 5)
     = Some [Byte.x05; Byte.x00; Byte.x00; Byte.x00]
  /\ absorbed 0 (VPointerToConst (Integral Int) 0x1000)
     = Some [Byte.x00; Byte.x10; Byte.x00; Byte.x00;
             Byte.x00; Byte.x00; Byte.x00; Byte.x00]
  /\ absorbed 0 (VPointerToConst (Integral Int) 0x1008)
     = Some [Byte.x08; Byte.x10; Byte.x00; Byte.x00;
             Byte.x00; Byte.x00; Byte.x00; Byte.x00]
  /\ hash_append_values (hash_append 0)
       (fun _ _ => [VIntegral Int 7; VIntegral Int 8]) fresh_debug_hasher
       (VIntegral Int 5)
       (VPointerToConst (Integral Int) 0x1000)
       [VPointerToConst (Integral Int) 0x1008]
     = Some {| buf_ := [Byte.x05; Byte.x00; Byte.x00; Byte.x00;
                        Byte.x07; Byte.x00] |}.
Proof. repeat split. Qed.

(** C6, amended.  Where the call with several values and the calls in
    the body of the variadic overload select the variadic overload
    (the last two values are not a pair of pointers that a range
    overload takes), the call returns as soon as every argument alone
    does, and a debug hasher has then recorded the encodings of the
    arguments from left to right, one after the other, whatever the
    memory holds.  Consequently, for two such values whose encodings
    are distinct and of one length, the order [(a, b)] and the order
    [(b, a)] record different bytes. *)
Theorem variadic_concatenates_in_order :
  (forall (memory : object -> object -> list object) (fuel : nat)
          (h : debug_hasher) (t0 t1 : object) (ts : list object)
          (bytes : list (list byte)),
      selects_variadic t0 t1 ts = true ->
      Forall2 (fun t e => absorbed fuel t = Some e) (t0 :: t1 :: ts) bytes ->
      hash_append_values (hash_append fuel) memory h t0 t1 ts
      = Some {| buf_ := buf_ h ++ concat bytes |})
  /\ (forall (memory : object -> object -> list object) (fuel : nat)
             (h : debug_hasher) (a b : object) (ea eb : list byte),
         pointer_pair a b = false ->
         absorbed fuel a = Some ea -> absorbed fuel b = Some eb ->
         List.length ea = List.length eb -> ea <> eb ->
         hash_append_values (hash_append fuel) memory h a b []
         <> hash_append_values (hash_append fuel) memory h b a []).
Proof.
  split.
  - intros memory fuel h t0 t1 ts bytes S F.
    apply hash_append_values_debug; assumption.
  - intros memory fuel h a b ea eb P Ea Eb L N E.
    assert (Sab : selects_variadic a b [] = true) by (simpl; now rewrite P).
    assert (Sba : selects_variadic b a [] = true).
    { simpl. now rewrite pointer_pair_sym, P. }
    rewrite (hash_append_values_debug fuel memory [] h a b [ea; eb] Sab)
      in E by (repeat constructor; assumption).
    rewrite (hash_append_values_debug fuel memory [] h b a [eb; ea] Sba)
      in E by (repeat constructor; assumption).
    injection E as E. apply app_inv_head in E. simpl in E.
    apply N. eapply app_eq_length_inv; eassumption.
Qed.

(** The [int]s 1 and 2: in order, and the two orders differ. *)
Lemma variadic_concatenates_in_order_witness :
  hash_append_values (hash_append 0) (fun _ _ => []) fresh_debug_hasher
    (VIntegral Int 1) (VIntegral Int 2) [VIntegral Bool 1]
  = Some {| buf_ := [Byte.x01; Byte.x00; Byte.x00; Byte.x00;
                     Byte.x02; Byte.x00; Byte.x00; Byte.x00;
                     Byte.x01] |}
  /\ hash_append_values (hash_append 0) (fun _ _ => []) fresh_debug_hasher
       (VIntegral Int 1) (VIntegral Int 2) []
     <> hash_append_values (hash_append 0) (fun _ _ => [])
          fresh_debug_hasher (VIntegral Int 2) (VIntegral Int 1) [].
Proof.
  split.
  - refine (proj1 variadic_concatenates_in_order (fun _ _ => []) 0%nat
              fresh_debug_hasher
              (VIntegral Int 1) (VIntegral Int 2) [VIntegral Bool 1]
              [storage (VIntegral Int 1); storage (VIntegral Int 2);
               storage (VIntegral Bool 1)]
              eq_refl _).
    repeat constructor.
  - apply (proj2 variadic_concatenates_in_order (fun _ _ => []) 0%nat
             fresh_debug_hasher
             (VIntegral Int 1) (VIntegral Int 2)
             (storage (VIntegral Int 1)) (storage (VIntegral Int 2)));
      try reflexivity.
    discriminate.
Defined.

(** ** Further facts *)

(** The floating point overload rewrites nothing but the zeros: every
    other bit pattern is recorded as stored. *)
Lemma floating_nonzero_absorbed_as_stored (fuel : nat) (k : floating_kind)
      (x : Z) :
  floating_eq_zero k x = false ->
  absorbed fuel (VFloating k x) = Some (storage (VFloating k x)).
Proof.
  intros N. unfold absorbed. rewrite hash_append_equation.
  unfold hash_append_floating. rewrite N. simpl.
  rewrite <- (length_le_split (floating_size k) x) at 1.
  rewrite firstn_all. reflexivity.
Qed.

(** What [main] of the driver records and prints. *)
Example main_records :
  Debug.main_hasher 0
  = Some {| buf_ := [Byte.x05; Byte.x00; Byte.x00; Byte.x00;
                     Byte.x01;
                     Byte.x6f; Byte.x12; Byte.x83; Byte.xc0;
                     Byte.xca; Byte.x21; Byte.x09; Byte.x40;
                     Byte.x01; Byte.x00; Byte.x00; Byte.x00;
                     Byte.x02; Byte.x00; Byte.x00; Byte.x00;
                     Byte.x03; Byte.x00; Byte.x00; Byte.x00;
                     Byte.x61; Byte.x62; Byte.x63;
                     Byte.x64; Byte.x65; Byte.x66] |}.
Proof. reflexivity. Qed.

Example main_prints :
  Debug.main 0
  = Some ("05 00 00 00 01 6f 12 83 c0 ca 21 09 40 01 00 00 "
          ++ Debug.newline
          ++ "00 02 00 00 00 03 00 00 00 61 62 63 64 65 66 "
          ++ Debug.newline ++ Debug.newline)%string.
Proof. reflexivity. Qed.

(* ------------------------------------------------------------------ *)
(** * Further properties of the code *)

(** ** The debug hasher *)

Lemma firstn_add_skipn {X : Type} (n m : nat) :
  forall l : list X, firstn (n + m) l = firstn n l ++ firstn m (skipn n l).
Proof.
  induction n as [|n IH]; intros [|x l]; simpl; try reflexivity.
  - now rewrite firstn_nil.
  - now rewrite IH.
Qed.

(** X1.  [debug_hasher::operator()] records a span the same way in one
    call or in two: a call with [n] bytes followed by a call with the
    next [m] bytes leaves what one call with [n + m] bytes leaves.  It
    reads no byte past [len], and a call with [len == 0] changes
    nothing. *)
Theorem debug_hasher_call_splits :
  (forall (h : debug_hasher) (key : list byte) (n m : nat),
      operator_call (operator_call h key n) (skipn n key) m
      = operator_call h key (n + m))
  /\ (forall (h : debug_hasher) (key beyond : list byte),
         operator_call h (key ++ beyond) (List.length key)
         = {| buf_ := buf_ h ++ key |})
  /\ (forall (h : debug_hasher) (key : list byte),
         operator_call h key 0 = h).
Proof.
  repeat split; intros; simpl; unfold debug_call; simpl.
  - rewrite firstn_add_skipn, app_assoc. reflexivity.
  - rewrite firstn_app, Nat.sub_diag, firstn_all. simpl.
    rewrite app_nil_r. reflexivity.
  - rewrite app_nil_r. apply debug_hasher_eta.
Qed.

(** ** Arrays and pointer ranges *)

(** X2.  The array overload for trivially comparable elements, where
    overload resolution selects it (the element type is trivially
    comparable and not itself hashable, as for [int[2][2]], whose
    elements are arrays), on a well typed array: the debug hasher
    records the storage of the elements in index order,
    [N * sizeof(T)] bytes. *)
Theorem trivial_array_overload_records_elements :
  forall (fuel : nat) (h : debug_hasher) (e : ctype) (xs : list object),
    trivially_comparable e = true ->
    Hashable_with e = false ->
    well_typed (VArray e xs) = true ->
    Hashable_with (type_of (VArray e xs)) = true
    /\ hash_append fuel h (VArray e xs)
       = Some {| buf_ := buf_ h ++ concat (map storage xs) |}
    /\ List.length (concat (map storage xs))
       = (List.length xs * sizeof e)%nat.
Proof.
  intros fuel h e xs T N W.
  pose proof (length_storage (VArray e xs) W) as L. simpl in L.
  rewrite flat_map_concat_map in L.
  split; [simpl; now rewrite T, N|]. split; [|exact L].
  rewrite hash_append_equation, T. unfold hash_append_array_trivial.
  change (operator_call h (storage (VArray e xs))
            (sizeof (type_of (VArray e xs))))
    with {| buf_ := buf_ h
                    ++ firstn (sizeof (type_of (VArray e xs)))
                              (storage (VArray e xs)) |}.
  rewrite (firstn_sizeof_storage (VArray e xs) W). simpl.
  rewrite flat_map_concat_map. reflexivity.
Qed.

(** [int a[2][2] = {{1, 2}, {3, 4}}]: sixteen bytes, row by row. *)
Lemma trivial_array_overload_records_elements_witness :
  hash_append 0 fresh_debug_hasher
    (VArray (Array (Integral Int) 2)
       [VArray (Integral Int) [VIntegral Int 1; VIntegral Int 2];
        VArray (Integral Int) [VIntegral Int 3; VIntegral Int 4]])
  = Some {| buf_ := [Byte.x01; Byte.x00; Byte.x00; Byte.x00;
                     Byte.x02; Byte.x00; Byte.x00; Byte.x00;
                     Byte.x03; Byte.x00; Byte.x00; Byte.x00;
                     Byte.x04; Byte.x00; Byte.x00; Byte.x00] |}.
Proof.
  exact (proj1 (proj2 (trivial_array_overload_records_elements
                         0 fresh_debug_hasher (Array (Integral Int) 2)
                         [VArray (Integral Int)
                            [VIntegral Int 1; VIntegral Int 2];
                          VArray (Integral Int)
                            [VIntegral Int 3; VIntegral Int 4]]
                         eq_refl eq_refl eq_refl))).
Defined.

(** X3.  On a range of trivially comparable elements that are one byte
    wide ([char], [bool], ...) the pointer overload leaves a debug
    hasher as the iterator range overload does: it records the storage
    of the elements, one byte each. *)
Theorem pointer_overload_agrees_on_one_byte_elements :
  forall (fuel : nat) (h : debug_hasher) (range : list object),
    forallb uniquely_represented range = true ->
    forallb (fun x => Nat.eqb (sizeof (type_of x)) 1) range = true ->
    hash_append_pointers h range
    = hash_append_range (hash_append fuel) h range
    /\ hash_append_pointers h range
       = Some {| buf_ := buf_ h ++ concat (map storage range) |}
    /\ List.length (concat (map storage range)) = List.length range.
Proof.
  intros fuel h range U B.
  pose proof (pointer_range_of_bytes fuel h range U B) as P.
  pose proof P as Q.
  rewrite (hash_append_range_debug fuel range h (map storage range)
             (Forall2_absorbed_storage fuel range U)) in Q.
  repeat split; [exact P | exact Q |].
  clear P Q h. induction range as [|x rest IH]; [reflexivity|]. simpl in *.
  apply andb_true_iff in U. destruct U as [Ux Ur].
  apply andb_true_iff in B. destruct B as [Bx Br].
  apply andb_true_iff in Ux. destruct Ux as [_ Wx].
  apply Nat.eqb_eq in Bx.
  rewrite length_app, (length_storage x Wx), Bx, (IH Ur Br). reflexivity.
Qed.

(** [char const s[] = "abcdef"; hash_append(h, s, s + 6)]. *)
Lemma pointer_overload_agrees_on_one_byte_elements_witness :
  hash_append_pointers fresh_debug_hasher (Debug.chars "abcdef")
  = Some {| buf_ := [Byte.x61; Byte.x62; Byte.x63;
                     Byte.x64; Byte.x65; Byte.x66] |}.
Proof.
  exact (proj1 (proj2 (pointer_overload_agrees_on_one_byte_elements
                         0 fresh_debug_hasher (Debug.chars "abcdef")
                         eq_refl eq_refl))).
Defined.

(** ** Ranges, vectors and strings *)

Lemma hash_append_range_app {H : Type} {A : Hash_algorithm H}
      (fuel : nat) (r1 r2 : list object) :
  forall h : H,
    hash_append_range (hash_append fuel) h (r1 ++ r2)
    = and_then (hash_append_range (hash_append fuel) h r1)
        (fun h' => hash_append_range (hash_append fuel) h' r2).
Proof.
  induction r1 as [|x r IH]; intros h; simpl; [reflexivity|].
  destruct (hash_append fuel h x) as [h'|]; simpl; [apply IH|reflexivity].
Qed.

(** X4.  The vector and string overloads of the driver put no frame
    around a sequence, whatever the algorithm: hashing [v1 ++ v2] is
    hashing [v1] and then [v2] into the same accumulator, and the empty
    sequence leaves the accumulator as it is.  So the vectors [{1, 2}]
    and [{3}] hashed in a row leave what [{1, 2, 3}] leaves. *)
Theorem vector_hash_has_no_frame :
  forall (H : Type) (A : Hash_algorithm H) (fuel : nat) (h : H)
         (v1 v2 : list object),
    Debug.hash_append_vector fuel h (v1 ++ v2)
    = and_then (Debug.hash_append_vector fuel h v1)
        (fun h' => Debug.hash_append_vector fuel h' v2)
    /\ Debug.hash_append_string fuel h (v1 ++ v2)
       = and_then (Debug.hash_append_string fuel h v1)
           (fun h' => Debug.hash_append_string fuel h' v2)
    /\ Debug.hash_append_vector fuel h [] = Some h
    /\ Debug.hash_append_string fuel h [] = Some h.
Proof.
  intros H A fuel h v1 v2.
  unfold Debug.hash_append_vector, Debug.hash_append_string.
  repeat split; apply hash_append_range_app.
Qed.

(** X5.  The variadic overload, where its calls select it, leaves the
    accumulator as the iterator range overload leaves it on the
    sequence of the same values, whatever the algorithm and whatever
    the memory holds: the values [(t0, t1, ..., tn)] hash as the
    sequence [{t0, t1, ..., tn}]. *)
Theorem variadic_hashes_as_the_sequence :
  forall (H : Type) (A : Hash_algorithm H) (fuel : nat)
         (memory : object -> object -> list object)
         (ts : list object) (h : H) (t0 t1 : object),
    selects_variadic t0 t1 ts = true ->
    hash_append_variadic (hash_append fuel) memory h t0 t1 ts
    = hash_append_range (hash_append fuel) h (t0 :: t1 :: ts).
Proof.
  intros H A fuel memory ts h t0 t1 S.
  apply hash_append_variadic_as_range, S.
Qed.

Lemma variadic_hashes_as_the_sequence_witness :
  hash_append_variadic (hash_append 0) (fun _ _ => []) fresh_debug_hasher
    (VIntegral Int 5) (VIntegral Bool 1) [VFloating Double Debug.double_3_1415]
  = hash_append_range (hash_append 0) fresh_debug_hasher
      [VIntegral Int 5; VIntegral Bool 1;
       VFloating Double Debug.double_3_1415].
Proof.
  exact (variadic_hashes_as_the_sequence
           debug_hasher debug_hasher_algorithm 0 (fun _ _ => [])
           [VFloating Double Debug.double_3_1415] fresh_debug_hasher
           (VIntegral Int 5) (VIntegral Bool 1) eq_refl).
Defined.

Lemma byte_of_char_code (c : Ascii.ascii) :
  byte.of_Z (Z.of_nat (Ascii.nat_of_ascii c)) = Ascii.byte_of_ascii c.
Proof. destruct c as [[] [] [] [] [] [] [] []]; vm_compute; reflexivity. Qed.

Lemma storage_chars (s : string) :
  concat (map storage (Debug.chars s)) = list_byte_of_string s.
Proof.
  unfold Debug.chars, list_byte_of_string.
  induction (list_ascii_of_string s) as [|c r IH]; [reflexivity|].
  simpl. rewrite IH.
  change (le_split 1 (Z.of_nat (Ascii.nat_of_ascii c)))
    with [byte.of_Z (Z.of_nat (Ascii.nat_of_ascii c))].
  rewrite byte_of_char_code. reflexivity.
Qed.

Lemma chars_uniquely_represented (s : string) :
  forallb uniquely_represented (Debug.chars s) = true.
Proof.
  unfold Debug.chars.
  induction (list_ascii_of_string s) as [|c r IH]; [reflexivity|].
  simpl. rewrite IH. reflexivity.
Qed.

(** X6.  The string overload of the driver, on a debug hasher, records
    the characters of the string and nothing else: one byte per
    character, equal to its code, in order, with no length before and
    no terminator after. *)
Theorem string_records_its_characters :
  forall (fuel : nat) (h : debug_hasher) (s : string),
    Debug.hash_append_string fuel h (Debug.chars s)
    = Some {| buf_ := buf_ h ++ list_byte_of_string s |}
    /\ List.length (list_byte_of_string s) = String.length s.
Proof.
  intros fuel h s. split.
  - unfold Debug.hash_append_string.
    rewrite (hash_append_range_debug fuel (Debug.chars s) h
               (map storage (Debug.chars s))
               (Forall2_absorbed_storage fuel _
                  (chars_uniquely_represented s))).
    rewrite storage_chars. reflexivity.
  - unfold list_byte_of_string. rewrite length_map.
    induction s as [|c s IH]; simpl; [reflexivity|now rewrite IH].
Qed.

(** ** Floating point values *)

(** X7.  For [float] and [double] the floating point overload merges
    the two zeros and nothing else: among the bit patterns of the
    type, two values leave the same bytes in a debug hasher exactly
    when they have the same bit pattern or both compare equal to zero.
    Two NaNs with different payloads are recorded differently. *)
Theorem floating_records_equal_iff :
  forall (fuel : nat) (k : floating_kind) (x y : Z),
    k <> LongDouble ->
    0 <= x < 2 ^ (sign_bit k + 1) ->
    0 <= y < 2 ^ (sign_bit k + 1) ->
    (absorbed fuel (VFloating k x) = absorbed fuel (VFloating k y)
     <-> x = y
         \/ (floating_eq_zero k x = true /\ floating_eq_zero k y = true)).
Proof.
  intros fuel k x y N Rx Ry. rewrite !absorbed_floating.
  pose proof (positive_zero_eq_zero k) as Z0. unfold positive_zero in *.
  assert (R0 : 0 <= 0 < 2 ^ (sign_bit k + 1)).
  { split; [lia|]. apply Z.pow_pos_nonneg; [lia|].
    pose proof (sign_bit_nonneg k). lia. }
  replace (sign_bit k + 1) with (Z.of_nat (floating_size k) * 8)
    in Rx, Ry, R0 by (rewrite <- (floating_width k N); unfold sign_bit; lia).
  pose proof (storage_assign_zero k x N) as Sx.
  pose proof (storage_assign_zero k y N) as Sy.
  rewrite <- le_split_zero in Sx, Sy.
  split.
  - intros E. injection E as E.
    destruct (floating_eq_zero k x) eqn:Zx, (floating_eq_zero k y) eqn:Zy.
    + right. split; reflexivity.
    + rewrite Sx in E.
      apply le_split_inj_width in E; [|assumption|assumption].
      subst y. congruence.
    + rewrite Sy in E.
      apply le_split_inj_width in E; [|assumption|assumption].
      subst x. congruence.
    + left. apply le_split_inj_width in E; assumption.
  - intros [E|[Zx Zy]]; [now subst y|]. now rewrite Zx, Zy, Sx, Sy.
Qed.

(** Two quiet NaNs of [double] that differ in the last payload bit. *)
Lemma floating_records_equal_iff_witness :
  absorbed 0 (VFloating Double 0x7ff8000000000000)
  <> absorbed 0 (VFloating Double 0x7ff8000000000001).
Proof.
  intros E.
  apply (floating_records_equal_iff 0 Double
           0x7ff8000000000000 0x7ff8000000000001) in E.
  - destruct E as [E|[E _]]; discriminate E.
  - discriminate.
  - split; [discriminate | reflexivity].
  - split; [discriminate | reflexivity].
Defined.

(** ** The output operator of the driver *)

Lemma string_length_append (s t : string) :
  String.length (s ++ t) = (String.length s + String.length t)%nat.
Proof. induction s as [|c s IH]; simpl; [reflexivity|now rewrite IH]. Qed.

Lemma string_append_assoc (s t u : string) :
  ((s ++ t) ++ u = s ++ (t ++ u))%string.
Proof. induction s as [|c s IH]; simpl; [reflexivity|now rewrite IH]. Qed.

Lemma put_bytes_length (buf : list byte) :
  forall n : nat,
    (n < 16)%nat ->
    String.length (Debug.put_bytes buf n)
    = (3 * List.length buf + (n + List.length buf) / 16)%nat.
Proof.
  induction buf as [|c rest IH]; intros n N.
  - change (String.length (Debug.put_bytes [] n)) with 0%nat.
    change (List.length (@nil byte)) with 0%nat.
    rewrite Nat.add_0_r, Nat.div_small by exact N. reflexivity.
  - change (Debug.put_bytes (c :: rest) n)
      with (Debug.put_byte c ++
            if Nat.eqb (S n) 16
            then Debug.newline ++ Debug.put_bytes rest 0
            else Debug.put_bytes rest (S n))%string.
    rewrite string_length_append.
    change (String.length (Debug.put_byte c)) with 3%nat.
    change (List.length (c :: rest)) with (S (List.length rest)).
    destruct (Nat.eqb (S n) 16) eqn:E.
    + apply Nat.eqb_eq in E.
      rewrite string_length_append, (IH 0%nat) by lia.
      change (String.length Debug.newline) with 1%nat.
      change (0 + List.length rest)%nat with (List.length rest).
      replace (n + S (List.length rest))%nat
        with (1 * 16 + List.length rest)%nat by lia.
      rewrite Nat.div_add_l by lia.
      generalize (List.length rest / 16)%nat. intros q. lia.
    + apply Nat.eqb_neq in E. rewrite (IH (S n)) by lia.
      replace (n + S (List.length rest))%nat
        with (S n + List.length rest)%nat by lia.
      generalize ((S n + List.length rest) / 16)%nat. intros q. lia.
Qed.

(** X8.  [operator<<] writes three characters for every byte, a line
    end after every sixteenth byte and one more at the end: the text
    for [n] bytes is [3 * n + n / 16 + 1] characters long.  (So an
    empty vector prints as one line end, and a vector of sixteen bytes
    ends in two.) *)
Theorem insert_bytes_length :
  forall buf : list byte,
    String.length (Debug.insert_bytes buf)
    = (3 * List.length buf + List.length buf / 16 + 1)%nat.
Proof.
  intros buf. unfold Debug.insert_bytes.
  rewrite string_length_append, (put_bytes_length buf 0) by lia.
  reflexivity.
Qed.

Lemma read_put_byte (c : byte) (tail : string) :
  Debug.read_bytes (Debug.put_byte c ++ tail) = c :: Debug.read_bytes tail.
Proof. destruct c; reflexivity. Qed.

Lemma read_put_bytes (buf : list byte) :
  forall n : nat,
    Debug.read_bytes (Debug.put_bytes buf n ++ Debug.newline) = buf.
Proof.
  induction buf as [|c rest IH]; intros n; [reflexivity|].
  change (Debug.put_bytes (c :: rest) n)
    with (Debug.put_byte c ++
          if Nat.eqb (S n) 16
          then Debug.newline ++ Debug.put_bytes rest 0
          else Debug.put_bytes rest (S n))%string.
  rewrite string_append_assoc, read_put_byte. f_equal.
  destruct (Nat.eqb (S n) 16).
  - rewrite string_append_assoc. apply (IH 0%nat).
  - apply IH.
Qed.

(** X9.  The text [operator<<] writes determines the bytes: two
    vectors that differ are printed differently. *)
Theorem insert_bytes_injective :
  forall buf1 buf2 : list byte,
    buf1 <> buf2 -> Debug.insert_bytes buf1 <> Debug.insert_bytes buf2.
Proof.
  intros buf1 buf2 N E. apply N.
  apply (f_equal Debug.read_bytes) in E. unfold Debug.insert_bytes in E.
  rewrite !read_put_bytes in E. exact E.
Qed.

Lemma insert_bytes_injective_witness :
  Debug.insert_bytes [Byte.x05; Byte.x00]
  <> Debug.insert_bytes [Byte.x50; Byte.x00].
Proof.
  apply insert_bytes_injective. discriminate.
Defined.

(** ** Vectors of floating point values *)

Lemma hash_append_floating_same {H : Type} {A : Hash_algorithm H}
      (fuel : nat) (h : H) (k : floating_kind) (x y : Z) :
  k <> LongDouble ->
  x = y \/ (floating_eq_zero k x = true /\ floating_eq_zero k y = true) ->
  hash_append fuel h (VFloating k x) = hash_append fuel h (VFloating k y).
Proof.
  intros N [E|[Zx Zy]]; [now subst y|].
  now rewrite (hash_append_floating_zero fuel h k x N Zx),
              (hash_append_floating_zero fuel h k y N Zy).
Qed.

(** X10.  Hashing is consistent with equality on vectors of [float]
    and of [double], whatever the algorithm: two vectors of one length
    whose elements, position by position, have the same bit pattern or
    are both zeros leave the accumulator in the same state. *)
Theorem vector_of_floating_hashes_by_value :
  forall (H : Type) (A : Hash_algorithm H) (fuel : nat)
         (k : floating_kind) (xs ys : list Z) (h : H),
    k <> LongDouble ->
    Forall2 (fun x y =>
               x = y \/ (floating_eq_zero k x = true
                         /\ floating_eq_zero k y = true)) xs ys ->
    Debug.hash_append_vector fuel h (map (VFloating k) xs)
    = Debug.hash_append_vector fuel h (map (VFloating k) ys).
Proof.
  intros H A fuel k xs ys h N F. revert h.
  unfold Debug.hash_append_vector.
  induction F as [|x y xs ys E _ IH]; intros h; simpl; [reflexivity|].
  rewrite (hash_append_floating_same fuel h k x y N E).
  destruct (hash_append fuel h (VFloating k y)); simpl;
    [apply IH|reflexivity].
Qed.

(** [{-0.0, 1.0}] and [{+0.0, 1.0}] as [std::vector<double>]. *)
Lemma vector_of_floating_hashes_by_value_witness :
  Debug.hash_append_vector 0 fresh_debug_hasher
    (map (VFloating Double) [2 ^ 63; 0x3ff0000000000000])
  = Debug.hash_append_vector 0 fresh_debug_hasher
      (map (VFloating Double) [0; 0x3ff0000000000000]).
Proof.
  apply (vector_of_floating_hashes_by_value
           debug_hasher debug_hasher_algorithm 0 Double
           [2 ^ 63; 0x3ff0000000000000] [0; 0x3ff0000000000000]
           fresh_debug_hasher).
  - discriminate.
  - apply Forall2_cons; [right; split; reflexivity|].
    apply Forall2_cons; [left; reflexivity|].
    apply Forall2_nil.
Defined.
